(** * Random password generator: policy table, generation and validation

    A shallow embedding of [src/utils/passwordGenerator.ts], and of the
    state and handlers of the component that calls it, together with the
    properties its specification states about it and further properties
    read off the code.

    Conventions of the embedding.
    - The requested length, an integer [number] given by the caller, is
      a [Z]; sizes and indices, which the code only ever obtains from
      [.length] and from [Math.floor] of a non-negative product, are [nat].
    - A JavaScript string is a [string]; its characters are [ascii] code
      units.
    - [Math.random] is the only effect.  The sequence of values it returns
      is an explicit state that every random computation threads through. *)

From Stdlib Require Import ZArith NArith Ascii String List Bool Lia.
From stdpp Require Import base numbers list strings pretty.

Local Open Scope Z_scope.

(** ** Randomness *)

(** One value returned by [Math.random()]: the non-negative rational
    [num / den].  ECMAScript promises a value below 1, which is the
    predicate [in_unit]; the code is also modelled at greater values (an
    index past the end of a string, an assignment past the end of an
    array), so that this promise is visible as a hypothesis where a
    property needs it. *)
Record draw : Type := Draw { num : N; den : positive }.

Definition in_unit (d : draw) : Prop := (num d < Npos (den d))%N.

(** The values that the successive calls of [Math.random] return. *)
Definition rng : Type := nat -> draw.

Definition unit_draws (g : rng) : Prop := forall k, in_unit (g k).

(** Computations that consume random values. *)
Definition Rand (A : Type) : Type := rng -> A * rng.

Definition ret {A : Type} (a : A) : Rand A := fun g => (a, g).

Definition bind {A B : Type} (m : Rand A) (k : A -> Rand B) : Rand B :=
  fun g => let (a, g') := m g in k a g'.

Notation "x <- m ;; k" := (bind m (fun x => k))
  (at level 100, m at next level, right associativity).

(** [Math.random()] *)
Definition Math_random : Rand draw := fun g => (g 0%nat, fun k => g (S k)).

(** [Math.floor(r * n)] for a size [n]. *)
Definition Math_floor_mul (r : draw) (n : nat) : nat :=
  N.to_nat ((num r * N.of_nat n) / Npos (den r)).

(** ** Strings and arrays, as JavaScript has them *)

Definition chars (s : string) : list ascii := list_ascii_of_string s.

(** [s[i]]: the character at index [i], [undefined] (here [None]) when the
    index is past the end. *)
Definition str_index (s : string) (i : nat) : option ascii := String.get i s.

(** [s += v], where [v] is a one-character string or [undefined]; string
    concatenation turns [undefined] into the text "undefined". *)
Definition str_plus (s : string) (v : option ascii) : string :=
  match v with
  | Some c => s +:+ String c EmptyString
  | None => s +:+ "undefined"
  end.

(** [l.join('')] for an array of strings. *)
Definition join_strings (l : list string) : string :=
  foldr String.append EmptyString l.

(** An array element of [shuffleString]: a one-character string, or
    [undefined] ([None]); a hole reads as [undefined] as well. *)
Definition elem : Type := option ascii.

(** [arr[j]] *)
Definition arr_get (arr : list elem) (j : nat) : elem :=
  match arr !! j with
  | Some v => v
  | None => None
  end.

(** [arr[j] = v]: an assignment past the end extends the array, leaving
    holes in between. *)
Definition arr_set (arr : list elem) (j : nat) (v : elem) : list elem :=
  if (j <? length arr)%nat then <[j := v]> arr
  else arr ++ replicate (j - length arr) None ++ [v].

(** [str.split('')] *)
Definition split (str : string) : list elem := Some <$> chars str.

(** [arr.join('')]: [undefined] and holes contribute the empty string. *)
Definition join (arr : list elem) : string :=
  foldr (fun v s => match v with
                    | Some c => String c s
                    | None => s
                    end) EmptyString arr.

(** ** Regular expressions of the form [/[...]/] *)

Inductive class_item : Type :=
| Range (lo hi : ascii)
| Single (c : ascii).

Definition code (c : ascii) : nat := nat_of_ascii c.

Definition item_matches (c : ascii) (it : class_item) : bool :=
  match it with
  | Range lo hi => (code lo <=? code c)%nat && (code c <=? code hi)%nat
  | Single x => (code x =? code c)%nat
  end.

Definition class_matches (cls : list class_item) (c : ascii) : bool :=
  existsb (item_matches c) cls.

(** [/[cls]/.test(s)]: some character of [s] is in the class. *)
Definition regex_test (cls : list class_item) (s : string) : bool :=
  existsb (class_matches cls) (chars s).

(** ** The policy table *)

Inductive PasswordStrength : Type := low | medium | high.

(** The string a [PasswordStrength] is at run time. *)
Definition strength_text (s : PasswordStrength) : string :=
  match s with
  | low => "low"
  | medium => "medium"
  | high => "high"
  end.

(** An object with string keys, in insertion order. *)
Definition object : Type := list (string * string).

Definition Object_values (o : object) : list string := o.*2.

Definition Object_keys (o : object) : list string := o.*1.

(** [o[key]]: [None] when [o] has no such property. *)
Fixpoint get_property (key : string) (o : object) : option string :=
  match o with
  | [] => None
  | (k, v) :: rest => if String.eqb k key then Some v else get_property key rest
  end.

Definition CHARACTER_SETS (s : PasswordStrength) : object :=
  match s with
  | low =>
      [ ("lowercase", "abcdefghijklmnopqrstuvwxyz");
        ("uppercase", "ABCDEFGHIJKLMNOPQRSTUVWXYZ");
        ("numbers", "0123456789") ]
  | medium =>
      [ ("lowercase", "abcdefghijklmnopqrstuvwxyz");
        ("uppercase", "ABCDEFGHIJKLMNOPQRSTUVWXYZ");
        ("numbers", "0123456789");
        ("symbols", "!@#$%^&*") ]
  | high =>
      [ ("lowercase", "abcdefghijklmnopqrstuvwxyz");
        ("uppercase", "ABCDEFGHIJKLMNOPQRSTUVWXYZ");
        ("numbers", "0123456789");
        ("symbols", "!@#$%^&*()_+-=[]{}|;:,.<>?") ]
  end.

Definition MIN_LENGTHS (s : PasswordStrength) : Z :=
  match s with
  | low => 6
  | medium => 8
  | high => 12
  end.

(** ** Errors *)

Record Error : Type := { message : string }.

(** How a call ends: with a value, or with a thrown [Error]. *)
Inductive completion (A : Type) : Type :=
| Return (a : A)
| Throw (e : Error).

Arguments Return {A} a.
Arguments Throw {A} e.

(** ** shuffleString *)

(** [[arr[i], arr[j]] = [arr[j], arr[i]]]: both reads happen first, then
    the write to [arr[i]], then the write to [arr[j]]. *)
Definition swap (arr : list elem) (i j : nat) : list elem :=
  let x := arr_get arr j in
  let y := arr_get arr i in
  arr_set (arr_set arr i x) j y.

(** The loop [for (let i = ...; i > 0; i--)], entered with the current
    value of [i]. *)
Fixpoint shuffle_loop (i : nat) (arr : list elem) : Rand (list elem) :=
  match i with
  | O => ret arr
  | S i' =>
      r <- Math_random ;;
      let j := Math_floor_mul r (i + 1) in
      shuffle_loop i' (swap arr i j)
  end.

Definition shuffleString (str : string) : Rand string :=
  let arr := split str in
  arr' <- shuffle_loop (length arr - 1) arr ;;
  ret (join arr').

(** ** generatePassword *)

(** From here on [length] is the field of the configuration; the length
    of a list is [Datatypes.length] and that of a string [String.length]. *)
Record PasswordConfig : Type :=
  { length : Z; strength : PasswordStrength }.

(** [requiredSets.forEach(charSet => ...)], threading [password]. *)
Fixpoint forEach_required (requiredSets : list string) (password : string)
  : Rand string :=
  match requiredSets with
  | [] => ret password
  | charSet :: rest =>
      r <- Math_random ;;
      let randomIndex := Math_floor_mul r (String.length charSet) in
      forEach_required rest (str_plus password (str_index charSet randomIndex))
  end.

(** The loop [for (let i = 0; i < remainingLength; i++)], entered with the
    number of iterations still to run. *)
Fixpoint fill_loop (todo : nat) (allChars password : string) : Rand string :=
  match todo with
  | O => ret password
  | S todo' =>
      r <- Math_random ;;
      let randomIndex := Math_floor_mul r (String.length allChars) in
      fill_loop todo' allChars (str_plus password (str_index allChars randomIndex))
  end.

Definition length_error (s : PasswordStrength) : Error :=
  {| message :=
       "Password length must be at least " +:+ pretty (MIN_LENGTHS s)
       +:+ " characters for " +:+ strength_text s +:+ " strength" |}.

Definition generatePassword (config : PasswordConfig)
  : Rand (completion string) :=
  let length := length config in
  let strength := strength config in
  if length <? MIN_LENGTHS strength then
    ret (Throw (length_error strength))
  else
    let charSets := CHARACTER_SETS strength in
    let allChars := join_strings (Object_values charSets) in
    let requiredSets := Object_values charSets in
    password <- forEach_required requiredSets EmptyString ;;
    let remainingLength := length - Z.of_nat (String.length password) in
    password <- fill_loop (Z.to_nat remainingLength) allChars password ;;
    shuffled <- shuffleString password ;;
    ret (Return shuffled).

(** ** validatePasswordStrength *)

(** The [details] of a report; its last field is [strength] in the source,
    a name the configuration record already has here. *)
Record ValidationDetails : Type :=
  { hasLowercase : bool;
    hasUppercase : bool;
    hasNumbers : bool;
    hasSymbols : bool;
    meetsLength : bool;
    details_strength : PasswordStrength }.

Record ValidationResult : Type :=
  { isValid : bool; details : ValidationDetails }.

Definition strength_eqb (a b : PasswordStrength) : bool :=
  match a, b with
  | low, low | medium, medium | high, high => true
  | _, _ => false
  end.

(** [/[a-z]/], [/[A-Z]/], [/[0-9]/] and the symbol class of line 106. *)
Definition re_lowercase : list class_item := [Range "a" "z"].
Definition re_uppercase : list class_item := [Range "A" "Z"].
Definition re_numbers : list class_item := [Range "0" "9"].
Definition re_symbols : list class_item :=
  [ Single "!"; Single "@"; Single "#"; Single "$"; Single "%"; Single "^";
    Single "&"; Single "*"; Single "("; Single ")"; Single "_"; Single "+";
    Single "-"; Single "="; Single "["; Single "]"; Single "{"; Single "}";
    Single "|"; Single ";"; Single ":"; Single ","; Single "."; Single "<";
    Single ">"; Single "?" ].

Definition validatePasswordStrength (password : string)
  (strength : PasswordStrength) : ValidationResult :=
  let charSets := CHARACTER_SETS strength in
  let minLength := MIN_LENGTHS strength in
  let hasLowercase := regex_test re_lowercase password in
  let hasUppercase := regex_test re_uppercase password in
  let hasNumbers := regex_test re_numbers password in
  let hasSymbols :=
    negb (strength_eqb strength low) && regex_test re_symbols password in
  let meetsLength := minLength <=? Z.of_nat (String.length password) in
  let isValid :=
    hasLowercase && hasUppercase && hasNumbers
    && (strength_eqb strength low || hasSymbols) && meetsLength in
  {| isValid := isValid;
     details :=
       {| hasLowercase := hasLowercase;
          hasUppercase := hasUppercase;
          hasNumbers := hasNumbers;
          hasSymbols := hasSymbols;
          meetsLength := meetsLength;
          details_strength := strength |} |}.

(** ** Accessors *)

Definition getMinLengthForStrength (strength : PasswordStrength) : Z :=
  MIN_LENGTHS strength.

Definition getCharacterSetsForStrength (strength : PasswordStrength) : object :=
  CHARACTER_SETS strength.

(** ** Vocabulary of the properties *)

(** The result of running a random computation on a source [g]. *)
Definition run {A : Type} (m : Rand A) (g : rng) : A := (m g).1.

(** The source as the computation leaves it. *)
Definition rest {A : Type} (m : Rand A) (g : rng) : rng := (m g).2.

(** [generate(L, S)] of the specification. *)
Definition generate (L : Z) (S : PasswordStrength) : Rand (completion string) :=
  generatePassword {| length := L; strength := S |}.

(** The union alphabet of a level: [allChars] of [generatePassword]. *)
Definition allChars_of (s : PasswordStrength) : string :=
  join_strings (Object_values (CHARACTER_SETS s)).

(** The string [P] contains at least one character of the set [cls]. *)
Definition contains_char_of (P cls : string) : Prop :=
  exists c, c ∈ chars P /\ c ∈ chars cls.

(** The extended symbol set, as the specification writes it. *)
Definition extended_symbols : string := "!@#$%^&*()_+-=[]{}|;:,.<>?".

Definition basic_symbols : string := "!@#$%^&*".

Definition lowercase_letters : string := "abcdefghijklmnopqrstuvwxyz".
Definition uppercase_letters : string := "ABCDEFGHIJKLMNOPQRSTUVWXYZ".
Definition digits : string := "0123456789".

(** The mandatory character classes of a level, as the specification's
    policy table lists them. *)
Definition mandatory_classes (s : PasswordStrength) : list string :=
  match s with
  | low => [lowercase_letters; uppercase_letters; digits]
  | medium => [lowercase_letters; uppercase_letters; digits; basic_symbols]
  | high => [lowercase_letters; uppercase_letters; digits; extended_symbols]
  end.

(** [c] lies between [lo] and [hi] in character-code order. *)
Definition between (lo hi c : ascii) : Prop :=
  (code lo <= code c)%nat /\ (code c <= code hi)%nat.

(** A lowercase letter a-z, an uppercase letter A-Z or a digit 0-9. *)
Definition alphanumeric (c : ascii) : Prop :=
  between "a" "z" c \/ between "A" "Z" c \/ between "0" "9" c.

(** What a caller can recover from the error of a failed [generate]: the
    information [info L S] is recoverable when one decoding of the thrown
    error yields it at every failing request. *)
Definition recoverable {A : Type} (info : Z -> PasswordStrength -> A) : Prop :=
  exists decode : Error -> A,
    forall (L : Z) (S : PasswordStrength) (g : rng) (e : Error),
      run (generate L S) g = Throw e -> decode e = info L S.

(** A fixed source of random values below 1, for running the model. *)
Definition demo_rng : rng :=
  fun k => {| num := N.of_nat (k * 37 mod 101); den := 101 |}.

(** ** The component that calls the module

    The state and the handlers of [PasswordGenerator] in
    [components/PasswordGenerator.tsx].  A handler runs on the state of the
    render it was created in and its [set...] calls take effect together,
    so a handler is a function from the state to the next state.  The
    clipboard handler, which awaits the browser, is not modelled. *)

Module PasswordGenerator.

(** The values of the [useState] hooks. *)
Record State : Type :=
  { password : string;
    length : Z;
    strength : PasswordStrength;
    isGenerating : bool;
    copied : bool;
    validation : option ValidationResult }.

(** The state of the first render. *)
Definition initial : State :=
  {| password := EmptyString;
     length := 12;
     strength := medium;
     isGenerating := false;
     copied := false;
     validation := None |}.

(** [const minLength = getMinLengthForStrength(strength)] *)
Definition minLength (st : State) : Z :=
  getMinLengthForStrength (strength st).

(** [handleGeneratePassword]; [console] collects the errors given to
    [console.error].  [isGenerating] is set to true on entry and to false
    in the [finally] block. *)
Definition handleGeneratePassword (st : State) (console : list Error)
  : Rand (State * list Error) :=
  let config := Build_PasswordConfig (length st) (strength st) in
  r <- generatePassword config ;;
  match r with
  | Return newPassword =>
      let validationResult :=
        validatePasswordStrength newPassword (strength st) in
      ret ({| password := newPassword;
              length := length st;
              strength := strength st;
              isGenerating := false;
              copied := copied st;
              validation := Some validationResult |}, console)
  | Throw error =>
      ret ({| password := password st;
              length := length st;
              strength := strength st;
              isGenerating := false;
              copied := copied st;
              validation := validation st |}, console ++ [error])
  end.

(** [handleStrengthChange] *)
Definition handleStrengthChange (newStrength : PasswordStrength) (st : State)
  : State :=
  let newMinLength := getMinLengthForStrength newStrength in
  {| password := password st;
     length := if length st <? newMinLength then newMinLength else length st;
     strength := newStrength;
     isGenerating := isGenerating st;
     copied := copied st;
     validation := validation st |}.

(** What [parseInt] returns for the text of an input field: [NaN], or an
    integer. *)
Inductive parsed : Type :=
| NaN
| Int (n : Z).

(** [p || d]: [NaN] and [0] are falsy. *)
Definition or_else (p : parsed) (d : Z) : Z :=
  match p with
  | NaN => d
  | Int n => if n =? 0 then d else n
  end.

(** The [onChange] of the number field:
    [setLength(Math.max(minLength, parseInt(e.target.value) || minLength))],
    given what [parseInt] returned. *)
Definition onNumberChange (p : parsed) (st : State) : State :=
  {| password := password st;
     length := Z.max (minLength st) (or_else p (minLength st));
     strength := strength st;
     isGenerating := isGenerating st;
     copied := copied st;
     validation := validation st |}.

(** The [onChange] of the slider: [setLength(parseInt(e.target.value))],
    given the integer [parseInt] returned. *)
Definition onSliderChange (n : Z) (st : State) : State :=
  {| password := password st;
     length := n;
     strength := strength st;
     isGenerating := isGenerating st;
     copied := copied st;
     validation := validation st |}.

(** The length is at least the minimum of the selected level. *)
Definition length_ok (st : State) : Prop := minLength st <= length st.

(** The states the component can be in, with the console and the source
    of random values: those that the handlers reach from the first
    render.  The slider is an [<input type="range" min={minLength}
    max={50}>], whose value the browser keeps between its bounds. *)
Inductive reachable : State -> list Error -> rng -> Prop :=
| reach_initial (g : rng) :
    unit_draws g -> reachable initial [] g
| reach_generate st console g :
    reachable st console g ->
    reachable (handleGeneratePassword st console g).1.1
              (handleGeneratePassword st console g).1.2
              (handleGeneratePassword st console g).2
| reach_strength st console g newStrength :
    reachable st console g ->
    reachable (handleStrengthChange newStrength st) console g
| reach_number st console g p :
    reachable st console g ->
    reachable (onNumberChange p st) console g
| reach_slider st console g n :
    reachable st console g ->
    minLength st <= n <= 50 ->
    reachable (onSliderChange n st) console g.

End PasswordGenerator.

(** ** Chosen random values *)

(** The source that returns the values of [ds] in order, and 0 after
    them. *)
Definition stream_of (ds : list draw) : rng := fun k => nth k ds (Draw 0 1).

(** The value [j / n]. *)
Definition draw_index (j n : nat) : draw := Draw (N.of_nat j) (Pos.of_nat n).

(** * Running the model *)

Example generate_low_6 : run (generate 6 low) demo_rng = Return "CZag7J".
Proof. reflexivity. Qed.

Example generate_medium_8 : run (generate 8 medium) demo_rng = Return "6GnJa!7N".
Proof. reflexivity. Qed.

Example generate_high_12 :
  run (generate 12 high) demo_rng = Return "+a7X6#ArcJ;O".
Proof. reflexivity. Qed.

Example generate_medium_5 :
  run (generate 5 medium) demo_rng
  = Throw {| message :=
      "Password length must be at least 8 characters for medium strength" |}.
Proof. reflexivity. Qed.

Example shuffle_abcdef : run (shuffleString "abcdef") demo_rng = "edfcba".
Proof. reflexivity. Qed.

(** A value of 3/2, which [Math.random] never returns, indexes past the end
    of every class: each required character becomes the text "undefined". *)
Example generate_out_of_range :
  run (generate 6 low) (fun _ => Draw 3 2) = Return "undefinedundefinedundefined".
Proof. reflexivity. Qed.

Example validate_Abc123_low : isValid (validatePasswordStrength "Abc123" low) = true.
Proof. reflexivity. Qed.

Example validate_Abc123_medium :
  isValid (validatePasswordStrength "Abc123" medium) = false.
Proof. reflexivity. Qed.

Example minimum_lengths :
  getMinLengthForStrength low = 6
  /\ getMinLengthForStrength medium = 8
  /\ getMinLengthForStrength high = 12.
Proof. by repeat split. Qed.

(** * Properties *)

(** ** Strings as lists of characters *)

Lemma chars_append (s t : string) : chars (s +:+ t) = chars s ++ chars t.
Proof. induction s as [|c s IH]; simpl; [done|]. unfold chars in *; simpl. by rewrite IH. Qed.

Lemma length_chars (s : string) : Datatypes.length (chars s) = String.length s.
Proof. induction s as [|c s IH]; simpl; [done|]. unfold chars in *; simpl. by rewrite IH. Qed.

Lemma str_index_lookup (s : string) (i : nat) : str_index s i = chars s !! i.
Proof.
  unfold str_index, chars. revert i.
  induction s as [|c s IH]; intros [|i]; simpl; auto.
Qed.

Lemma chars_join (l : list ascii) : chars (join (Some <$> l)) = l.
Proof. induction l as [|c l IH]; [done|]. unfold chars; simpl. f_equal. exact IH. Qed.

Lemma chars_join_strings (l : list string) :
  chars (join_strings l) = concat (chars <$> l).
Proof.
  induction l as [|s l IH]; simpl; [done|].
  by rewrite chars_append, IH.
Qed.

(** ** Random values *)

Lemma Math_floor_mul_lt (r : draw) (n : nat) :
  in_unit r -> (0 < n)%nat -> (Math_floor_mul r n < n)%nat.
Proof.
  unfold in_unit, Math_floor_mul. intros Hr Hn.
  assert ((num r * N.of_nat n / N.pos (den r) < N.of_nat n)%N); [|lia].
  apply N.Div0.div_lt_upper_bound. nia.
Qed.

Lemma unit_draws_tail (g : rng) : unit_draws g -> unit_draws (fun k => g (S k)).
Proof. intros H k. apply H. Qed.

(** ** The shuffle permutes *)

(** An array is dense when every index below its length holds a character;
    that is the image of a list of characters under [Some]. *)

Lemma arr_get_dense (l : list ascii) (j : nat) (x : ascii) :
  l !! j = Some x -> arr_get (Some <$> l) j = Some x.
Proof. intros H. unfold arr_get. by rewrite list_lookup_fmap, H. Qed.

Lemma arr_set_dense (l : list ascii) (j : nat) (x : ascii) :
  (j < Datatypes.length l)%nat ->
  arr_set (Some <$> l) j (Some x) = Some <$> <[j := x]> l.
Proof.
  unfold arr_set. rewrite length_fmap. intros H.
  apply Nat.ltb_lt in H as ->. by rewrite list_fmap_insert.
Qed.

Lemma swap_dense (l : list ascii) (i j : nat) :
  (i < Datatypes.length l)%nat -> (j < Datatypes.length l)%nat ->
  exists l', swap (Some <$> l) i j = Some <$> l' /\ l' ≡ₚ l.
Proof.
  intros Hi Hj.
  destruct (lookup_lt_is_Some_2 l i Hi) as [y Hy].
  destruct (lookup_lt_is_Some_2 l j Hj) as [x Hx].
  exists (<[j := y]> (<[i := x]> l)). split.
  - unfold swap. rewrite (arr_get_dense l j x Hx), (arr_get_dense l i y Hy).
    rewrite arr_set_dense by done.
    rewrite arr_set_dense by (by rewrite length_insert).
    done.
  - by apply Permutation_insert_swap.
Qed.

Lemma shuffle_loop_perm (i : nat) :
  forall (l : list ascii) (g : rng),
    (i <= Datatypes.length l - 1)%nat -> unit_draws g ->
    exists l',
      (shuffle_loop i (Some <$> l) g).1 = Some <$> l'
      /\ l' ≡ₚ l
      /\ unit_draws (shuffle_loop i (Some <$> l) g).2.
Proof.
  induction i as [|i IH]; intros l g Hi Hg.
  - exists l. by repeat split.
  - cbn [shuffle_loop]. unfold bind, Math_random.
    set (j := Math_floor_mul (g 0%nat) (S i + 1)).
    assert (j < S i + 1)%nat as Hj
      by (apply Math_floor_mul_lt; [apply Hg | lia]).
    destruct (swap_dense l (S i) j) as (l1 & -> & Hl1); [lia | lia |].
    destruct (IH l1 (fun k => g (S k))) as (l2 & E & Hl2 & Hg2).
    + apply Permutation_length in Hl1. lia.
    + by apply unit_draws_tail.
    + exists l2. repeat split; [done | by etrans | done].
Qed.

Lemma shuffleString_perm (str : string) (g : rng) :
  unit_draws g ->
  chars (shuffleString str g).1 ≡ₚ chars str /\ unit_draws (shuffleString str g).2.
Proof.
  intros Hg. unfold shuffleString, bind, split.
  destruct (shuffle_loop_perm (Datatypes.length (Some <$> chars str) - 1) (chars str) g)
    as (l' & E & Hl & Hg'); [by rewrite length_fmap | done |].
  destruct (shuffle_loop _ _ g) as [arr g']. simpl in *. subst arr.
  by rewrite chars_join.
Qed.

(** ** The two drawing loops of generatePassword *)

Lemma str_plus_pick (password charSet : string) (r : draw) :
  in_unit r -> (0 < String.length charSet)%nat ->
  exists c,
    c ∈ chars charSet
    /\ chars (str_plus password
                (str_index charSet (Math_floor_mul r (String.length charSet))))
       = chars password ++ [c].
Proof.
  intros Hr Hn. rewrite str_index_lookup.
  destruct (lookup_lt_is_Some_2 (chars charSet)
              (Math_floor_mul r (String.length charSet))) as [c Hc].
  { rewrite length_chars. by apply Math_floor_mul_lt. }
  exists c. split.
  - by eapply list_elem_of_lookup_2.
  - rewrite Hc. unfold str_plus. by rewrite chars_append.
Qed.

Lemma forEach_required_picks (requiredSets : list string) :
  forall (password : string) (g : rng),
    Forall (fun s => 0 < String.length s)%nat requiredSets ->
    unit_draws g ->
    exists picks,
      Forall2 (fun c s => c ∈ chars s) picks requiredSets
      /\ chars (forEach_required requiredSets password g).1
         = chars password ++ picks
      /\ unit_draws (forEach_required requiredSets password g).2.
Proof.
  induction requiredSets as [|charSet rest IH]; intros password g Hne Hg.
  - exists []. simpl. by rewrite app_nil_r.
  - apply Forall_cons in Hne as [Hn Hne].
    cbn [forEach_required]. unfold bind, Math_random.
    destruct (str_plus_pick password charSet (g 0%nat) (Hg 0%nat) Hn)
      as (c & Hc & E).
    destruct (IH (str_plus password
                    (str_index charSet
                       (Math_floor_mul (g 0%nat) (String.length charSet))))
                (fun k => g (S k)) Hne (unit_draws_tail g Hg))
      as (picks & Hp & E' & Hg').
    exists (c :: picks). repeat split; [by constructor | | done].
    by rewrite E', E, <- app_assoc.
Qed.

Lemma fill_loop_fill (todo : nat) (allChars : string) :
  forall (password : string) (g : rng),
    (0 < String.length allChars)%nat ->
    unit_draws g ->
    exists fill,
      Datatypes.length fill = todo
      /\ Forall (fun c => c ∈ chars allChars) fill
      /\ chars (fill_loop todo allChars password g).1 = chars password ++ fill
      /\ unit_draws (fill_loop todo allChars password g).2.
Proof.
  induction todo as [|todo IH]; intros password g Hn Hg.
  - exists []. simpl. by rewrite app_nil_r.
  - cbn [fill_loop]. unfold bind, Math_random.
    destruct (str_plus_pick password allChars (g 0%nat) (Hg 0%nat) Hn)
      as (c & Hc & E).
    destruct (IH (str_plus password
                    (str_index allChars
                       (Math_floor_mul (g 0%nat) (String.length allChars))))
                (fun k => g (S k)) Hn (unit_draws_tail g Hg))
      as (fill & Hlen & Hf & E' & Hg').
    exists (c :: fill). repeat split; [simpl; lia | by constructor | | done].
    by rewrite E', E, <- app_assoc.
Qed.

(** ** What generatePassword returns *)

Lemma CHARACTER_SETS_nonempty (s : PasswordStrength) :
  Forall (fun cs => 0 < String.length cs)%nat (Object_values (CHARACTER_SETS s)).
Proof. destruct s; repeat constructor; simpl; lia. Qed.

Lemma allChars_nonempty (s : PasswordStrength) :
  (0 < String.length (allChars_of s))%nat.
Proof. destruct s; vm_compute; lia. Qed.

Lemma generatePassword_returns (L : Z) (s : PasswordStrength) (g : rng) :
  MIN_LENGTHS s <= L -> unit_draws g ->
  exists picks fill pw,
    run (generate L s) g = Return pw
    /\ Forall2 (fun c cs => c ∈ chars cs) picks (Object_values (CHARACTER_SETS s))
    /\ Forall (fun c => c ∈ chars (allChars_of s)) fill
    /\ Datatypes.length fill = Z.to_nat (L - Z.of_nat (Datatypes.length picks))
    /\ chars pw ≡ₚ picks ++ fill.
Proof.
  intros HL Hg. unfold run, generate, generatePassword. cbn [length strength].
  destruct (Z.ltb_spec L (MIN_LENGTHS s)) as [|_]; [lia|].
  unfold bind at 1.
  destruct (forEach_required_picks (Object_values (CHARACTER_SETS s))
              EmptyString g (CHARACTER_SETS_nonempty s) Hg)
    as (picks & Hp & E1 & Hg1).
  destruct (forEach_required _ _ g) as [pw1 g1]. cbn [fst snd] in E1, Hg1.
  unfold bind at 1.
  destruct (fill_loop_fill
              (Z.to_nat (L - Z.of_nat (String.length pw1)))
              (allChars_of s) pw1 g1 (allChars_nonempty s) Hg1)
    as (fill & Hlen & Hf & E2 & Hg2).
  fold (allChars_of s).
  destruct (fill_loop _ _ pw1 g1) as [pw2 g2]. cbn [fst snd] in E2, Hg2.
  unfold bind.
  destruct (shuffleString_perm pw2 g2 Hg2) as [Hperm _].
  destruct (shuffleString pw2 g2) as [pw g3]. cbn [fst snd] in *.
  exists picks, fill, pw. repeat split; try done.
  - rewrite Hlen, <- length_chars, E1. done.
  - rewrite Hperm, E2, E1. done.
Qed.

Lemma elem_of_chars_join_strings (c : ascii) (l : list string) :
  c ∈ chars (join_strings l) <-> exists s, s ∈ l /\ c ∈ chars s.
Proof.
  induction l as [|s l IH]; simpl.
  - split; [intros H; inversion H | intros (s & H & _); inversion H].
  - rewrite chars_append, elem_of_app, IH. split.
    + intros [H | (s' & H1 & H2)]; [exists s | exists s'];
        split; auto; by constructor.
    + intros (s' & H1 & H2). apply elem_of_cons in H1 as [-> | H1]; eauto.
Qed.

Lemma Forall2_covers (picks : list ascii) (sets : list string) (cs : string) :
  Forall2 (fun c s => c ∈ chars s) picks sets -> cs ∈ sets ->
  exists c, c ∈ picks /\ c ∈ chars cs.
Proof.
  induction 1 as [|c s picks sets Hc _ IH]; intros Hin.
  - inversion Hin.
  - apply elem_of_cons in Hin as [-> | Hin].
    + exists c. split; [by constructor | done].
    + destruct (IH Hin) as (c' & H1 & H2). exists c'. split; [by constructor | done].
Qed.

Lemma mandatory_classes_values (s : PasswordStrength) :
  mandatory_classes s = Object_values (CHARACTER_SETS s).
Proof. by destruct s. Qed.

Lemma mandatory_classes_length (s : PasswordStrength) :
  Z.of_nat (Datatypes.length (mandatory_classes s)) <= MIN_LENGTHS s.
Proof. destruct s; simpl; lia. Qed.

(** Everything the properties below need to know about a successful
    generation. *)
Lemma generatePassword_summary (L : Z) (s : PasswordStrength) (g : rng) :
  MIN_LENGTHS s <= L -> unit_draws g ->
  exists pw,
    run (generate L s) g = Return pw
    /\ Z.of_nat (String.length pw) = L
    /\ (forall cs, cs ∈ mandatory_classes s -> contains_char_of pw cs)
    /\ Forall (fun c => c ∈ chars (allChars_of s)) (chars pw).
Proof.
  intros HL Hg.
  destruct (generatePassword_returns L s g HL Hg)
    as (picks & fill & pw & E & Hp & Hf & Hlen & Hperm).
  exists pw. split; [done|]. split; [|split].
  - rewrite <- length_chars, Hperm, length_app, Hlen.
    apply Forall2_length in Hp. rewrite Hp, <- mandatory_classes_values.
    pose proof (mandatory_classes_length s). lia.
  - intros cs Hcs. rewrite mandatory_classes_values in Hcs.
    destruct (Forall2_covers picks _ cs Hp Hcs) as (c & H1 & H2).
    exists c. split; [|done]. rewrite Hperm. apply elem_of_app. by left.
  - rewrite Hperm. apply Forall_app. split; [|done].
    apply Forall_forall. intros c Hc.
    apply list_elem_of_lookup in Hc as [i Hi].
    destruct (Forall2_lookup_l _ _ _ _ _ Hp Hi) as (cs & Hcs & Hin).
    apply elem_of_chars_join_strings. exists cs. split; [|done].
    by eapply list_elem_of_lookup_2.
Qed.

Lemma demo_rng_unit : unit_draws demo_rng.
Proof.
  intros k. unfold in_unit, demo_rng. simpl.
  pose proof (Nat.mod_upper_bound (k * 37) 101). lia.
Qed.

(** ** Regular-expression tests *)

Lemma code_inj (x y : ascii) : code x = code y -> x = y.
Proof.
  unfold code. intros H.
  rewrite <- (ascii_nat_embedding x), <- (ascii_nat_embedding y). by rewrite H.
Qed.

Lemma regex_test_iff (cls : list class_item) (P : string) :
  regex_test cls P = true <-> exists c, c ∈ chars P /\ class_matches cls c = true.
Proof.
  unfold regex_test. rewrite existsb_exists.
  split; intros (c & H1 & H2); exists c; split; try done; by apply list_elem_of_In.
Qed.

Lemma class_matches_singles (l : list ascii) (c : ascii) :
  class_matches (Single <$> l) c = true <-> c ∈ l.
Proof.
  unfold class_matches. rewrite existsb_exists. split.
  - intros (it & Hin & Hm). apply list_elem_of_In, list_elem_of_fmap in Hin.
    destruct Hin as (x & -> & Hx). simpl in Hm.
    apply Nat.eqb_eq, code_inj in Hm. by subst.
  - intros Hc. exists (Single c). split.
    + apply list_elem_of_In, list_elem_of_fmap. by exists c.
    + simpl. apply Nat.eqb_refl.
Qed.

Lemma re_symbols_extended : re_symbols = Single <$> chars extended_symbols.
Proof. reflexivity. Qed.

Lemma regex_test_symbols (P : string) :
  regex_test re_symbols P = true <-> contains_char_of P extended_symbols.
Proof.
  rewrite regex_test_iff, re_symbols_extended. unfold contains_char_of.
  split; intros (c & H1 & H2); exists c; split; try done;
    by apply class_matches_singles.
Qed.

Lemma covered_regex_test (cls : list class_item) (cs pw : string) :
  forallb (class_matches cls) (chars cs) = true ->
  contains_char_of pw cs -> regex_test cls pw = true.
Proof.
  intros Hall (c & H1 & H2). apply regex_test_iff. exists c. split; [done|].
  rewrite forallb_forall in Hall. by apply Hall, list_elem_of_In.
Qed.

(** * The claims *)

(** C1 (as the code has it).  The [hasSymbols] flag of
    [validate(P, S)] is true exactly when [S] is not Low and [P] contains at
    least one character of the extended symbol set
    [!@#$%^&*()_+-=[]{}|;:,.<>?]; between Medium and High the test does not
    depend on the level, and at Low the flag is always false. *)
Theorem hasSymbols_iff (P : string) (S : PasswordStrength) :
  hasSymbols (details (validatePasswordStrength P S)) = true
  <-> S <> low /\ contains_char_of P extended_symbols.
Proof.
  cbn [validatePasswordStrength details hasSymbols].
  rewrite andb_true_iff, regex_test_symbols, negb_true_iff.
  destruct S; simpl; intuition congruence.
Qed.

(** C1 as stated fails: at Low, a password that contains the extended
    symbol [[] is reported with [hasSymbols] false. *)
Lemma hasSymbols_low_counterexample :
  ~ (hasSymbols (details (validatePasswordStrength "Abc[12" low)) = true
     <-> contains_char_of "Abc[12" extended_symbols).
Proof.
  intros [_ H]. simpl in H. discriminate H.
  exists "["%char. split; apply list_elem_of_In; simpl; auto 30.
Qed.

(** ** Failure of generatePassword *)

Lemma generate_throws (L : Z) (S : PasswordStrength) (g : rng) :
  L < MIN_LENGTHS S -> generate L S g = (Throw (length_error S), g).
Proof.
  intros H. unfold generate, generatePassword. cbn [length strength].
  by destruct (Z.ltb_spec L (MIN_LENGTHS S)); [|lia].
Qed.

Lemma generate_returns (L : Z) (S : PasswordStrength) (g : rng) :
  MIN_LENGTHS S <= L -> exists pw, run (generate L S) g = Return pw.
Proof.
  intros H. unfold run, generate, generatePassword. cbn [length strength].
  destruct (Z.ltb_spec L (MIN_LENGTHS S)); [lia|].
  unfold bind.
  destruct (forEach_required _ _ g) as [pw1 g1].
  destruct (fill_loop _ _ pw1 g1) as [pw2 g2].
  destruct (shuffleString pw2 g2) as [pw g3].
  by exists pw.
Qed.

(** C2 (as the code has it).  A request below the minimum makes
    [generate(L, S)] throw an [Error] whose only content is its message,
    which names the required minimum length and the strength level: the
    level [S] and its minimum length are recoverable from the error by the
    caller.  The error does not carry the requested length. *)
Theorem length_error_carries_strength_and_minimum :
  (forall (L : Z) (S : PasswordStrength) (g : rng),
      L < MIN_LENGTHS S ->
      exists e, run (generate L S) g = Throw e
        /\ message e =
             "Password length must be at least " +:+ pretty (MIN_LENGTHS S)
             +:+ " characters for " +:+ strength_text S +:+ " strength")
  /\ recoverable (fun _ S => (S, MIN_LENGTHS S)).
Proof.
  split.
  - intros L S g H. exists (length_error S).
    unfold run. by rewrite generate_throws.
  - exists (fun e =>
              if String.eqb (message e) (message (length_error low))
              then (low, MIN_LENGTHS low)
              else if String.eqb (message e) (message (length_error medium))
                   then (medium, MIN_LENGTHS medium)
                   else (high, MIN_LENGTHS high)).
    intros L S g e He.
    destruct (Z.lt_ge_cases L (MIN_LENGTHS S)) as [Hlt | Hge].
    + unfold run in He. rewrite generate_throws in He by done.
      injection He as <-. by destruct S.
    + destruct (generate_returns L S g Hge) as [pw Hpw]. congruence.
Qed.

(** C2 as stated fails: no decoding of the error yields the requested
    length, since the requests of lengths 1 and 2 at Low throw the same
    error. *)
Lemma length_error_forgets_length :
  ~ recoverable (fun L S => (L, S, MIN_LENGTHS S)).
Proof.
  intros [decode H].
  pose proof (H 1 low demo_rng (length_error low) eq_refl) as H1.
  pose proof (H 2 low demo_rng (length_error low) eq_refl) as H2.
  congruence.
Qed.

(** C6.  [generate(L, S)] throws if and only if [L] is below the minimum
    length of [S], and returns a password otherwise; the thrown error is the
    length error of [S], a failed call carries no string, and it has drawn
    no random value, so nothing was produced before the check. *)
Theorem generate_fails_iff_below_minimum
  (L : Z) (S : PasswordStrength) (g : rng) :
  ((exists e, run (generate L S) g = Throw e) <-> L < MIN_LENGTHS S)
  /\ ((exists pw, run (generate L S) g = Return pw) <-> MIN_LENGTHS S <= L)
  /\ (forall e, run (generate L S) g = Throw e ->
        e = length_error S /\ rest (generate L S) g = g).
Proof.
  destruct (Z.lt_ge_cases L (MIN_LENGTHS S)) as [Hlt | Hge].
  - pose proof (generate_throws L S g Hlt) as E.
    unfold run, rest. rewrite E. cbn [fst snd].
    split; [|split].
    + split; [done | by eexists].
    + split; [intros [pw ?]; discriminate | lia].
    + intros e [= <-]. done.
  - destruct (generate_returns L S g Hge) as [pw E]. rewrite E.
    split; [|split].
    + split; [intros [e ?]; discriminate | lia].
    + split; [done | by eexists].
    + intros e ?. discriminate.
Qed.

(** C7.  The mapping returned by [characterClasses(S)] has a "symbols" entry
    if and only if [S] is not Low; for Low it has exactly the three keys
    lowercase, uppercase and numbers, the "symbols" key being absent, and
    for Medium and High it has four entries. *)
Theorem symbols_entry_iff_not_low (S : PasswordStrength) :
  (is_Some (get_property "symbols" (getCharacterSetsForStrength S)) <-> S <> low)
  /\ Object_keys (getCharacterSetsForStrength low)
     = ["lowercase"; "uppercase"; "numbers"]
  /\ get_property "symbols" (getCharacterSetsForStrength low) = None
  /\ Object_keys (getCharacterSetsForStrength medium)
     = ["lowercase"; "uppercase"; "numbers"; "symbols"]
  /\ Object_keys (getCharacterSetsForStrength high)
     = ["lowercase"; "uppercase"; "numbers"; "symbols"].
Proof.
  repeat split; try done.
  - intros [v Hv] ->. discriminate Hv.
  - intros H. destruct S; [done | by eexists | by eexists].
Qed.

(** C8.  On the empty string [validate] returns a report, for every level,
    in which the four presence flags are false, [meetsLength] is false
    and the overall validity is false. *)
Theorem validate_empty (S : PasswordStrength) :
  validatePasswordStrength "" S =
  {| isValid := false;
     details :=
       {| hasLowercase := false;
          hasUppercase := false;
          hasNumbers := false;
          hasSymbols := false;
          meetsLength := false;
          details_strength := S |} |}.
Proof. by destruct S. Qed.

(** C9.  Under random values below 1, [shuffleString] returns a permutation
    of its input: the same characters with the same multiplicities. *)
Theorem shuffleString_permutation (str : string) (g : rng) :
  unit_draws g -> chars (run (shuffleString str) g) ≡ₚ chars str.
Proof. intros Hg. by destruct (shuffleString_perm str g Hg). Qed.

Lemma shuffleString_permutation_witness :
  unit_draws demo_rng
  /\ chars (run (shuffleString "aB3$aB") demo_rng) ≡ₚ chars "aB3$aB".
Proof.
  split; [exact demo_rng_unit|].
  exact (shuffleString_permutation "aB3$aB" demo_rng demo_rng_unit).
Defined.

(** ** Successful generation *)

(** C4.  For a length at or above the minimum of the level and random
    values below 1, [generate(L, S)] returns a string of length exactly
    [L]. *)
Theorem generate_length (L : Z) (S : PasswordStrength) (g : rng) :
  MIN_LENGTHS S <= L -> unit_draws g ->
  exists pw, run (generate L S) g = Return pw /\ Z.of_nat (String.length pw) = L.
Proof.
  intros HL Hg.
  destruct (generatePassword_summary L S g HL Hg) as (pw & E & Hlen & _).
  by exists pw.
Qed.

Lemma generate_length_witness :
  MIN_LENGTHS high <= 15 /\ unit_draws demo_rng
  /\ exists pw, run (generate 15 high) demo_rng = Return pw
                /\ Z.of_nat (String.length pw) = 15.
Proof.
  assert (MIN_LENGTHS high <= 15) as H by (simpl; lia).
  split; [exact H|]. split; [exact demo_rng_unit|].
  exact (generate_length 15 high demo_rng H demo_rng_unit).
Defined.

(** C5.  For a length at or above the minimum of the level and random
    values below 1, the password that [generate(L, S)] returns, that is
    the string after the final shuffle, contains at least one character
    of every mandatory class of the level: lowercase, uppercase and digits
    for Low, and those and the symbol class of the level for Medium and
    High. *)
Theorem generate_covers_classes (L : Z) (S : PasswordStrength) (g : rng) :
  MIN_LENGTHS S <= L -> unit_draws g ->
  exists pw,
    run (generate L S) g = Return pw
    /\ forall cs, cs ∈ mandatory_classes S -> contains_char_of pw cs.
Proof.
  intros HL Hg.
  destruct (generatePassword_summary L S g HL Hg) as (pw & E & _ & Hcov & _).
  by exists pw.
Qed.

Lemma generate_covers_classes_witness :
  MIN_LENGTHS medium <= 8 /\ unit_draws demo_rng
  /\ exists pw,
       run (generate 8 medium) demo_rng = Return pw
       /\ forall cs, cs ∈ mandatory_classes medium -> contains_char_of pw cs.
Proof.
  assert (MIN_LENGTHS medium <= 8) as H by (simpl; lia).
  split; [exact H|]. split; [exact demo_rng_unit|].
  exact (generate_covers_classes 8 medium demo_rng H demo_rng_unit).
Defined.

Lemma validate_covering (pw : string) (S : PasswordStrength) :
  MIN_LENGTHS S <= Z.of_nat (String.length pw) ->
  (forall cs, cs ∈ mandatory_classes S -> contains_char_of pw cs) ->
  isValid (validatePasswordStrength pw S) = true.
Proof.
  intros Hlen Hcov. cbn [validatePasswordStrength isValid].
  assert (regex_test re_lowercase pw = true) as ->.
  { apply (covered_regex_test _ lowercase_letters); [done|].
    apply Hcov. destruct S; repeat constructor. }
  assert (regex_test re_uppercase pw = true) as ->.
  { apply (covered_regex_test _ uppercase_letters); [done|].
    apply Hcov. destruct S; repeat constructor. }
  assert (regex_test re_numbers pw = true) as ->.
  { apply (covered_regex_test _ digits); [done|].
    apply Hcov. destruct S; repeat constructor. }
  apply Z.leb_le in Hlen as ->.
  destruct S; [done | |]; simpl.
  - rewrite (covered_regex_test _ basic_symbols); [done | done |].
    apply Hcov. repeat constructor.
  - rewrite (covered_regex_test _ extended_symbols); [done | done |].
    apply Hcov. repeat constructor.
Qed.

(** C3.  For a length at or above the minimum of the level and random
    values below 1, the password that [generate(L, S)] returns is valid for
    [S]: [validate(generate(L, S), S).valid] is true. *)
Theorem generate_self_validates (L : Z) (S : PasswordStrength) (g : rng) :
  MIN_LENGTHS S <= L -> unit_draws g ->
  exists pw,
    run (generate L S) g = Return pw
    /\ isValid (validatePasswordStrength pw S) = true.
Proof.
  intros HL Hg.
  destruct (generatePassword_summary L S g HL Hg) as (pw & E & Hlen & Hcov & _).
  exists pw. split; [done|]. apply validate_covering; [lia | done].
Qed.

Lemma generate_self_validates_witness :
  MIN_LENGTHS high <= 12 /\ unit_draws demo_rng
  /\ exists pw,
       run (generate 12 high) demo_rng = Return pw
       /\ isValid (validatePasswordStrength pw high) = true.
Proof.
  assert (MIN_LENGTHS high <= 12) as H by (simpl; lia).
  split; [exact H|]. split; [exact demo_rng_unit|].
  exact (generate_self_validates 12 high demo_rng H demo_rng_unit).
Defined.

Lemma class_matches_alphanumeric (c : ascii) :
  class_matches (re_lowercase ++ re_uppercase ++ re_numbers) c = true ->
  alphanumeric c.
Proof.
  unfold alphanumeric, between. cbn [class_matches app re_lowercase re_uppercase re_numbers existsb item_matches].
  rewrite !orb_true_iff, !andb_true_iff, !Nat.leb_le. intuition discriminate.
Qed.

Lemma low_alphabet (c : ascii) :
  c ∈ chars (allChars_of low) ->
  alphanumeric c /\ c ∉ chars extended_symbols.
Proof.
  intros Hc.
  assert (forallb (fun c => class_matches (re_lowercase ++ re_uppercase ++ re_numbers) c
                            && negb (class_matches re_symbols c))
            (chars (allChars_of low)) = true) as Hall by (by vm_compute).
  rewrite forallb_forall in Hall.
  apply list_elem_of_In, Hall, andb_true_iff in Hc as [H1 H2].
  split; [by apply class_matches_alphanumeric|].
  intros Hin. apply class_matches_singles in Hin.
  rewrite <- re_symbols_extended in Hin. by rewrite Hin in H2.
Qed.

(** C10.  For a length of at least 6 and random values below 1, every
    character of the password that [generate(L, low)] returns is a lowercase
    letter, an uppercase letter or a digit, and none is a symbol. *)
Theorem generate_low_alphanumeric (L : Z) (g : rng) :
  6 <= L -> unit_draws g ->
  exists pw,
    run (generate L low) g = Return pw
    /\ Forall alphanumeric (chars pw)
    /\ ~ contains_char_of pw extended_symbols.
Proof.
  intros HL Hg.
  destruct (generatePassword_summary L low g HL Hg) as (pw & E & _ & _ & Hall).
  rewrite Forall_forall in Hall.
  exists pw. split; [done|]. split.
  - apply Forall_forall. intros c Hc. by apply low_alphabet, Hall.
  - intros (c & Hc & Hsym). by apply (low_alphabet c (Hall c Hc)).
Qed.

Lemma generate_low_alphanumeric_witness :
  6 <= 9 /\ unit_draws demo_rng
  /\ exists pw,
       run (generate 9 low) demo_rng = Return pw
       /\ Forall alphanumeric (chars pw)
       /\ ~ contains_char_of pw extended_symbols.
Proof.
  assert (6 <= 9) as H by lia.
  split; [exact H|]. split; [exact demo_rng_unit|].
  exact (generate_low_alphanumeric 9 demo_rng H demo_rng_unit).
Defined.

(** * Further properties of the module *)

(** ** Validation looks only at which characters occur and how many *)

Lemma regex_test_Permutation (cls : list class_item) (P Q : string) :
  chars P ≡ₚ chars Q -> regex_test cls P = regex_test cls Q.
Proof.
  intros H. apply eq_true_iff_eq. rewrite !regex_test_iff.
  split; intros (c & Hc & Hm); exists c; split; try done.
  - by rewrite <- H.
  - by rewrite H.
Qed.

Lemma String_length_Permutation (P Q : string) :
  chars P ≡ₚ chars Q -> String.length P = String.length Q.
Proof. intros H. rewrite <- !length_chars. by apply Permutation_length. Qed.

Lemma regex_test_append (cls : list class_item) (P Q : string) :
  regex_test cls (P +:+ Q) = regex_test cls P || regex_test cls Q.
Proof. unfold regex_test. by rewrite chars_append, existsb_app. Qed.

Lemma String_length_append (P Q : string) :
  String.length (P +:+ Q) = (String.length P + String.length Q)%nat.
Proof. by rewrite <- !length_chars, chars_append, length_app. Qed.

(** X1.  The report of [validatePasswordStrength] does not depend on the
    order of the characters: two passwords that are permutations of each
    other get the same report at every level. *)
Theorem validate_permutation (P Q : string) (S : PasswordStrength) :
  chars P ≡ₚ chars Q ->
  validatePasswordStrength P S = validatePasswordStrength Q S.
Proof.
  intros H. unfold validatePasswordStrength.
  by rewrite !(regex_test_Permutation _ P Q H), (String_length_Permutation P Q H).
Qed.

Lemma validate_permutation_witness :
  chars "Abc123" ≡ₚ chars "321cbA"
  /\ validatePasswordStrength "Abc123" medium
     = validatePasswordStrength "321cbA" medium.
Proof.
  assert (chars "Abc123" ≡ₚ chars "321cbA") as H.
  { change (chars "Abc123") with (reverse (chars "321cbA")).
    apply reverse_Permutation. }
  split; [exact H|]. exact (validate_permutation "Abc123" "321cbA" medium H).
Defined.

(** X2.  Shuffling never changes what validation reports: under random
    values below 1, the shuffled string gets the report of the string that
    was shuffled, at every level. *)
Theorem validate_shuffleString (str : string) (S : PasswordStrength) (g : rng) :
  unit_draws g ->
  validatePasswordStrength (run (shuffleString str) g) S
  = validatePasswordStrength str S.
Proof.
  intros Hg. destruct (shuffleString_perm str g Hg) as [H _].
  unfold validatePasswordStrength, run.
  by rewrite !(regex_test_Permutation _ _ _ H), (String_length_Permutation _ _ H).
Qed.

Lemma validate_shuffleString_witness :
  unit_draws demo_rng
  /\ validatePasswordStrength (run (shuffleString "Abc123!x") demo_rng) medium
     = validatePasswordStrength "Abc123!x" medium.
Proof.
  split; [exact demo_rng_unit|].
  exact (validate_shuffleString "Abc123!x" medium demo_rng demo_rng_unit).
Defined.

(** X3.  Validity is downward closed in the level: a password valid at
    High is valid at Medium, and one valid at Medium is valid at Low. *)
Theorem isValid_downward (P : string) :
  (isValid (validatePasswordStrength P high) = true ->
   isValid (validatePasswordStrength P medium) = true)
  /\ (isValid (validatePasswordStrength P medium) = true ->
      isValid (validatePasswordStrength P low) = true).
Proof.
  cbn [validatePasswordStrength isValid]. simpl.
  rewrite !andb_true_iff, !Z.leb_le. split; intros H; repeat split; try tauto; lia.
Qed.

(** X4.  Adding characters never invalidates a password: if [P] is valid
    at a level, so are [P] followed by any [Q] and [Q] followed by [P]. *)
Theorem isValid_append (P Q : string) (S : PasswordStrength) :
  isValid (validatePasswordStrength P S) = true ->
  isValid (validatePasswordStrength (P +:+ Q) S) = true
  /\ isValid (validatePasswordStrength (Q +:+ P) S) = true.
Proof.
  cbn [validatePasswordStrength isValid].
  rewrite !regex_test_append, !String_length_append.
  rewrite !andb_true_iff, !orb_true_iff, !andb_true_iff, !negb_true_iff,
    !orb_true_iff, !Z.leb_le.
  intros ((((H1 & H2) & H3) & H4) & H5).
  split; (repeat split; [tauto | tauto | tauto | | lia]); tauto.
Qed.

Lemma isValid_append_witness :
  isValid (validatePasswordStrength "Abc123" low) = true
  /\ isValid (validatePasswordStrength ("Abc123" +:+ " ~") low) = true
  /\ isValid (validatePasswordStrength (" ~" +:+ "Abc123") low) = true.
Proof.
  assert (isValid (validatePasswordStrength "Abc123" low) = true) as H
    by reflexivity.
  split; [exact H|]. exact (isValid_append "Abc123" " ~" low H).
Defined.

(** ** The ranges of validation are the classes of the policy table *)

Lemma class_matches_lowercase (c : ascii) :
  class_matches re_lowercase c = bool_decide (c ∈ chars lowercase_letters).
Proof. destruct c as [[] [] [] [] [] [] [] []]; by vm_compute. Qed.

Lemma class_matches_uppercase (c : ascii) :
  class_matches re_uppercase c = bool_decide (c ∈ chars uppercase_letters).
Proof. destruct c as [[] [] [] [] [] [] [] []]; by vm_compute. Qed.

Lemma class_matches_numbers (c : ascii) :
  class_matches re_numbers c = bool_decide (c ∈ chars digits).
Proof. destruct c as [[] [] [] [] [] [] [] []]; by vm_compute. Qed.

Lemma regex_test_table (cls : list class_item) (cs P : string) :
  (forall c, class_matches cls c = bool_decide (c ∈ chars cs)) ->
  regex_test cls P = true <-> contains_char_of P cs.
Proof.
  intros Hcls. rewrite regex_test_iff. unfold contains_char_of.
  split; intros (c & H1 & H2); exists c; split; try done.
  - rewrite Hcls in H2. by apply bool_decide_eq_true in H2.
  - rewrite Hcls. by apply bool_decide_eq_true.
Qed.

(** X5.  The detection categories of [validatePasswordStrength] are the
    classes of the policy table: the lowercase, uppercase and numbers flags
    hold exactly when the password contains a character of the class of
    that name, and a password is valid exactly when it contains one
    character of each of the three, one of the extended symbols unless the
    level is Low, and has at least the minimum length of the level. *)
Theorem validate_by_classes (P : string) (S : PasswordStrength) :
  let v := validatePasswordStrength P S in
  (hasLowercase (details v) = true <-> contains_char_of P lowercase_letters)
  /\ (hasUppercase (details v) = true <-> contains_char_of P uppercase_letters)
  /\ (hasNumbers (details v) = true <-> contains_char_of P digits)
  /\ (isValid v = true <->
        contains_char_of P lowercase_letters
        /\ contains_char_of P uppercase_letters
        /\ contains_char_of P digits
        /\ (S = low \/ contains_char_of P extended_symbols)
        /\ MIN_LENGTHS S <= Z.of_nat (String.length P)).
Proof.
  cbn zeta.
  cbn [validatePasswordStrength isValid details hasLowercase hasUppercase hasNumbers].
  pose proof (regex_test_table _ _ P class_matches_lowercase) as Hl.
  pose proof (regex_test_table _ _ P class_matches_uppercase) as Hu.
  pose proof (regex_test_table _ _ P class_matches_numbers) as Hn.
  pose proof (regex_test_symbols P) as Hs.
  split; [exact Hl|]. split; [exact Hu|]. split; [exact Hn|].
  rewrite !andb_true_iff, orb_true_iff, andb_true_iff, negb_true_iff, Z.leb_le.
  rewrite Hl, Hu, Hn, Hs.
  destruct S; cbn [strength_eqb]; intuition (try discriminate; try congruence).
Qed.

(** ** How many random values are drawn *)

Lemma shuffle_loop_rest (i : nat) :
  forall (arr : list elem) (g : rng) (k : nat),
    (shuffle_loop i arr g).2 k = g (i + k)%nat.
Proof.
  induction i as [|i IH]; intros arr g k; [done|].
  cbn [shuffle_loop]. unfold bind, Math_random. by rewrite IH.
Qed.

Lemma forEach_required_rest (requiredSets : list string) :
  forall (password : string) (g : rng) (k : nat),
    (forEach_required requiredSets password g).2 k
    = g (Datatypes.length requiredSets + k)%nat.
Proof.
  induction requiredSets as [|cs l IH]; intros password g k; [done|].
  cbn [forEach_required]. unfold bind, Math_random. by rewrite IH.
Qed.

Lemma fill_loop_rest (todo : nat) (allChars : string) :
  forall (password : string) (g : rng) (k : nat),
    (fill_loop todo allChars password g).2 k = g (todo + k)%nat.
Proof.
  induction todo as [|todo IH]; intros password g k; [done|].
  cbn [fill_loop]. unfold bind, Math_random. by rewrite IH.
Qed.

Lemma join_split (str : string) : join (split str) = str.
Proof.
  induction str as [|c str IH]; [done|].
  change (String c (join (split str)) = String c str). by rewrite IH.
Qed.

(** X6.  [shuffleString] calls [Math.random] once for every character but
    the first, whatever values it gets: after shuffling a string of [n]
    characters the source of random values has advanced by [n - 1], and by
    nothing for the empty string. *)
Theorem shuffleString_draws (str : string) (g : rng) (k : nat) :
  rest (shuffleString str) g k = g (String.length str - 1 + k)%nat.
Proof.
  unfold rest, shuffleString, bind, ret.
  pose proof (shuffle_loop_rest (Datatypes.length (split str) - 1) (split str) g k) as H.
  destruct (shuffle_loop _ _ g) as [arr g']. cbn [snd] in *.
  rewrite H. unfold split. by rewrite length_fmap, length_chars.
Qed.

(** X7.  A string of at most one character is returned unchanged by
    [shuffleString], and no random value is drawn. *)
Theorem shuffleString_short (str : string) (g : rng) :
  (String.length str <= 1)%nat -> shuffleString str g = (str, g).
Proof.
  intros H. unfold shuffleString, bind.
  replace (Datatypes.length (split str) - 1)%nat with 0%nat.
  - cbn [shuffle_loop]. unfold ret. by rewrite join_split.
  - unfold split. rewrite length_fmap, length_chars. lia.
Qed.

Lemma shuffleString_short_witness :
  (String.length "x" <= 1)%nat /\ shuffleString "x" demo_rng = ("x", demo_rng).
Proof.
  assert (String.length "x" <= 1)%nat as H by (simpl; lia).
  split; [exact H|]. exact (shuffleString_short "x" demo_rng H).
Defined.

(** X8.  A successful [generatePassword] under random values below 1 calls
    [Math.random] exactly [2 * length - 1] times: once per class, once per
    remaining position and [length - 1] times in the shuffle. *)
Theorem generatePassword_draws (L : Z) (S : PasswordStrength) (g : rng) (k : nat) :
  MIN_LENGTHS S <= L -> unit_draws g ->
  rest (generate L S) g k = g (Z.to_nat (2 * L - 1) + k)%nat.
Proof.
  intros HL Hg. unfold rest, generate, generatePassword. cbn [length strength].
  destruct (Z.ltb_spec L (MIN_LENGTHS S)) as [|_]; [lia|].
  unfold bind at 1.
  destruct (forEach_required_picks (Object_values (CHARACTER_SETS S))
              EmptyString g (CHARACTER_SETS_nonempty S) Hg)
    as (picks & Hp & E1 & Hg1).
  pose proof (forEach_required_rest (Object_values (CHARACTER_SETS S))
                EmptyString g) as R1.
  destruct (forEach_required _ _ g) as [pw1 g1]. cbn [fst snd] in E1, Hg1, R1.
  unfold bind at 1.
  destruct (fill_loop_fill
              (Z.to_nat (L - Z.of_nat (String.length pw1)))
              (allChars_of S) pw1 g1 (allChars_nonempty S) Hg1)
    as (fill & Hlen & Hf & E2 & Hg2).
  pose proof (fill_loop_rest (Z.to_nat (L - Z.of_nat (String.length pw1)))
                (allChars_of S) pw1 g1) as R2.
  fold (allChars_of S).
  destruct (fill_loop _ _ pw1 g1) as [pw2 g2]. cbn [fst snd] in E2, Hg2, R2.
  unfold shuffleString, bind, ret.
  pose proof (shuffle_loop_rest (Datatypes.length (split pw2) - 1) (split pw2) g2 k)
    as R3.
  destruct (shuffle_loop _ _ g2) as [arr g3]. cbn [fst snd] in *.
  rewrite R3, R2, R1. unfold split. rewrite length_fmap, length_chars. f_equal.
  apply Forall2_length in Hp.
  assert (String.length pw1 = Datatypes.length (Object_values (CHARACTER_SETS S))) as Hpw1.
  { rewrite <- length_chars, E1. simpl. by rewrite Hp. }
  assert (String.length pw2 = Z.to_nat L) as Hpw2.
  { rewrite <- length_chars, E2, length_app, length_chars, Hlen.
    pose proof (mandatory_classes_length S) as Hm.
    rewrite mandatory_classes_values in Hm. lia. }
  rewrite Hpw2, Hpw1.
  pose proof (mandatory_classes_length S) as Hm.
  rewrite mandatory_classes_values in Hm. lia.
Qed.

Lemma generatePassword_draws_witness :
  MIN_LENGTHS medium <= 10 /\ unit_draws demo_rng
  /\ rest (generate 10 medium) demo_rng 0%nat
     = demo_rng (Z.to_nat (2 * 10 - 1) + 0)%nat.
Proof.
  assert (MIN_LENGTHS medium <= 10) as H by (simpl; lia).
  split; [exact H|]. split; [exact demo_rng_unit|].
  exact (generatePassword_draws 10 medium demo_rng 0%nat H demo_rng_unit).
Defined.

(** ** The alphabet of a level *)

(** X9.  Under random values below 1, every character of a generated
    password belongs to one of the character sets of the requested level;
    at Medium, for instance, no symbol outside [!@#$%^&*] can occur. *)
Theorem generatePassword_alphabet (L : Z) (S : PasswordStrength) (g : rng) :
  MIN_LENGTHS S <= L -> unit_draws g ->
  exists pw,
    run (generate L S) g = Return pw
    /\ forall c, c ∈ chars pw ->
         exists cs, cs ∈ Object_values (getCharacterSetsForStrength S)
                    /\ c ∈ chars cs.
Proof.
  intros HL Hg.
  destruct (generatePassword_summary L S g HL Hg) as (pw & E & _ & _ & Hall).
  rewrite Forall_forall in Hall.
  exists pw. split; [done|]. intros c Hc.
  by apply elem_of_chars_join_strings, Hall.
Qed.

Lemma generatePassword_alphabet_witness :
  MIN_LENGTHS medium <= 20 /\ unit_draws demo_rng
  /\ exists pw,
       run (generate 20 medium) demo_rng = Return pw
       /\ forall c, c ∈ chars pw ->
            exists cs, cs ∈ Object_values (getCharacterSetsForStrength medium)
                       /\ c ∈ chars cs.
Proof.
  assert (MIN_LENGTHS medium <= 20) as H by (simpl; lia).
  split; [exact H|]. split; [exact demo_rng_unit|].
  exact (generatePassword_alphabet 20 medium demo_rng H demo_rng_unit).
Defined.

(** X10.  In every level the character sets are duplicate-free and
    pairwise disjoint: the union alphabet [allChars] of [generatePassword]
    lists no character twice, so a uniform index into it is a uniform
    character. *)
Theorem allChars_NoDup (S : PasswordStrength) :
  NoDup (chars (join_strings (Object_values (CHARACTER_SETS S)))).
Proof. destruct S; apply (bool_decide_unpack _); by vm_compute. Qed.

Lemma symbols_of_level (S : PasswordStrength) (pw : string) :
  S <> low ->
  (forall cs, cs ∈ mandatory_classes S -> contains_char_of pw cs) ->
  regex_test re_symbols pw = true.
Proof.
  intros HS Hcov. destruct S; [done | |].
  - apply (covered_regex_test _ basic_symbols); [done|].
    apply Hcov. repeat constructor.
  - apply (covered_regex_test _ extended_symbols); [done|].
    apply Hcov. repeat constructor.
Qed.

(** X11.  Validating a generated password against another level: under
    random values below 1, the password of [generatePassword] at level [S]
    and length [L] is valid at level [S'] exactly when [L] reaches the
    minimum length of [S'] and [S'] is Low or [S] is not Low.  So a Low
    password is never valid at Medium or High, whatever its length. *)
Theorem generated_valid_at (L : Z) (S S' : PasswordStrength) (g : rng) :
  MIN_LENGTHS S <= L -> unit_draws g ->
  exists pw,
    run (generate L S) g = Return pw
    /\ (isValid (validatePasswordStrength pw S') = true
        <-> MIN_LENGTHS S' <= L /\ (S' = low \/ S <> low)).
Proof.
  intros HL Hg.
  destruct (generatePassword_summary L S g HL Hg) as (pw & E & Hlen & Hcov & Hall).
  exists pw. split; [done|].
  pose proof (validate_covering pw S) as Hv.
  cbn [validatePasswordStrength isValid] in Hv |- *.
  rewrite !andb_true_iff, orb_true_iff, andb_true_iff, negb_true_iff, !Z.leb_le in Hv |- *.
  rewrite Hlen in Hv |- *.
  destruct (Hv HL Hcov) as ((((H1 & H2) & H3) & _) & _).
  assert (S = low \/ S <> low) as [-> | HS]
    by (destruct S; [by left | by right | by right]).
  - assert (regex_test re_symbols pw = false) as Hno.
    { apply not_true_is_false. intros Ht.
      apply regex_test_symbols in Ht as (c & Hc & Hsym).
      rewrite Forall_forall in Hall.
      by apply (low_alphabet c (Hall c Hc)). }
    rewrite Hno. destruct S'; cbn [strength_eqb]; intuition congruence.
  - rewrite (symbols_of_level S pw HS Hcov).
    destruct S'; cbn [strength_eqb negb]; intuition congruence.
Qed.

Lemma generated_valid_at_witness :
  MIN_LENGTHS low <= 30 /\ unit_draws demo_rng
  /\ exists pw,
       run (generate 30 low) demo_rng = Return pw
       /\ (isValid (validatePasswordStrength pw high) = true
           <-> MIN_LENGTHS high <= 30 /\ (high = low \/ low <> low)).
Proof.
  assert (MIN_LENGTHS low <= 30) as H by (simpl; lia).
  split; [exact H|]. split; [exact demo_rng_unit|].
  exact (generated_valid_at 30 low high demo_rng H demo_rng_unit).
Defined.

(** * The component *)

Lemma generatePassword_rest_shift (config : PasswordConfig) (g : rng) :
  exists n, forall k, (generatePassword config g).2 k = g (n + k)%nat.
Proof.
  unfold generatePassword.
  destruct (length config <? MIN_LENGTHS (strength config)).
  { by exists 0%nat. }
  unfold bind at 1.
  pose proof (forEach_required_rest
                (Object_values (CHARACTER_SETS (strength config))) EmptyString g)
    as R1.
  destruct (forEach_required _ _ g) as [pw1 g1]. cbn [snd] in R1.
  unfold bind at 1.
  match goal with |- context [fill_loop ?n ?a pw1 g1] =>
    pose proof (fill_loop_rest n a pw1 g1) as R2;
    destruct (fill_loop n a pw1 g1) as [pw2 g2] end.
  cbn [snd] in R2.
  unfold shuffleString, bind, ret.
  pose proof (shuffle_loop_rest (Datatypes.length (split pw2) - 1) (split pw2) g2)
    as R3.
  destruct (shuffle_loop _ _ g2) as [arr g3]. cbn [snd] in *.
  eexists. intros k. rewrite R3, R2, R1. f_equal. rewrite !Nat.add_assoc. done.
Qed.

Lemma generatePassword_rest_unit (config : PasswordConfig) (g : rng) :
  unit_draws g -> unit_draws (generatePassword config g).2.
Proof.
  intros Hg k. destruct (generatePassword_rest_shift config g) as [n Hn].
  rewrite Hn. apply Hg.
Qed.

(** X12.  After [handleStrengthChange] the length is at least the minimum
    of the new level, from whatever state: a length below the new minimum
    is raised to it, any other length is kept, and the length is never
    lowered. *)
Theorem handleStrengthChange_length
  (newStrength : PasswordStrength) (st : PasswordGenerator.State) :
  let st' := PasswordGenerator.handleStrengthChange newStrength st in
  PasswordGenerator.strength st' = newStrength
  /\ PasswordGenerator.length_ok st'
  /\ PasswordGenerator.length st' =
       Z.max (PasswordGenerator.length st) (getMinLengthForStrength newStrength).
Proof.
  cbn zeta. unfold PasswordGenerator.length_ok, PasswordGenerator.minLength.
  cbn [PasswordGenerator.handleStrengthChange PasswordGenerator.strength
       PasswordGenerator.length].
  destruct (Z.ltb_spec (PasswordGenerator.length st)
              (getMinLengthForStrength newStrength)); repeat split; lia.
Qed.

(** X13.  The number field never stores a length below the minimum of the
    selected level: whatever [parseInt] returned, [NaN], zero or a negative
    number included, the new length is at least the minimum, and an integer
    at or above the minimum is stored as it is. *)
Theorem onNumberChange_length
  (p : PasswordGenerator.parsed) (st : PasswordGenerator.State) :
  let st' := PasswordGenerator.onNumberChange p st in
  PasswordGenerator.length_ok st'
  /\ PasswordGenerator.strength st' = PasswordGenerator.strength st
  /\ (forall n, p = PasswordGenerator.Int n ->
        PasswordGenerator.minLength st <= n ->
        PasswordGenerator.length st' = n)
  /\ (p = PasswordGenerator.NaN ->
        PasswordGenerator.length st' = PasswordGenerator.minLength st).
Proof.
  cbn zeta. unfold PasswordGenerator.length_ok, PasswordGenerator.minLength.
  cbn [PasswordGenerator.onNumberChange PasswordGenerator.strength
       PasswordGenerator.length].
  unfold PasswordGenerator.minLength.
  repeat split.
  - lia.
  - intros n -> Hn. cbn [PasswordGenerator.or_else].
    assert (0 < getMinLengthForStrength (PasswordGenerator.strength st))
      by (destruct (PasswordGenerator.strength st); done).
    destruct (Z.eqb_spec n 0); lia.
  - intros ->. cbn [PasswordGenerator.or_else]. lia.
Qed.

(** X14.  When the length is at least the minimum of the selected level
    and the random values are below 1, [handleGeneratePassword] stores a
    password of exactly that length together with its validation report,
    which says valid, leaves length and level as they are and logs
    nothing. *)
Theorem handleGeneratePassword_ok
  (st : PasswordGenerator.State) (console : list Error) (g : rng) :
  PasswordGenerator.length_ok st -> unit_draws g ->
  exists pw,
    run (PasswordGenerator.handleGeneratePassword st console) g =
      ({| PasswordGenerator.password := pw;
          PasswordGenerator.length := PasswordGenerator.length st;
          PasswordGenerator.strength := PasswordGenerator.strength st;
          PasswordGenerator.isGenerating := false;
          PasswordGenerator.copied := PasswordGenerator.copied st;
          PasswordGenerator.validation :=
            Some (validatePasswordStrength pw (PasswordGenerator.strength st)) |},
       console)
    /\ Z.of_nat (String.length pw) = PasswordGenerator.length st
    /\ isValid (validatePasswordStrength pw (PasswordGenerator.strength st)) = true.
Proof.
  intros Hok Hg.
  destruct (generatePassword_summary (PasswordGenerator.length st)
              (PasswordGenerator.strength st) g Hok Hg)
    as (pw & E & Hlen & Hcov & _).
  exists pw. split; [|split; [done|]].
  - unfold run, generate in *. unfold PasswordGenerator.handleGeneratePassword, bind.
    destruct (generatePassword _ g) as [r g']. cbn [fst] in E. by subst r.
  - apply validate_covering; [|done].
    unfold PasswordGenerator.length_ok, PasswordGenerator.minLength,
      getMinLengthForStrength in Hok. lia.
Qed.

Lemma handleGeneratePassword_ok_witness :
  PasswordGenerator.length_ok PasswordGenerator.initial /\ unit_draws demo_rng
  /\ exists pw,
    run (PasswordGenerator.handleGeneratePassword PasswordGenerator.initial []) demo_rng =
      ({| PasswordGenerator.password := pw;
          PasswordGenerator.length := 12;
          PasswordGenerator.strength := medium;
          PasswordGenerator.isGenerating := false;
          PasswordGenerator.copied := false;
          PasswordGenerator.validation :=
            Some (validatePasswordStrength pw medium) |},
       [])
    /\ Z.of_nat (String.length pw) = 12
    /\ isValid (validatePasswordStrength pw medium) = true.
Proof.
  assert (PasswordGenerator.length_ok PasswordGenerator.initial) as H
    by (by vm_compute).
  split; [exact H|]. split; [exact demo_rng_unit|].
  exact (handleGeneratePassword_ok PasswordGenerator.initial [] demo_rng
           H demo_rng_unit).
Defined.

(** X15.  When the length is below the minimum of the selected level,
    [handleGeneratePassword] catches the error of [generatePassword]: the
    error is logged, no random value is drawn, and the password and the
    validation on display stay those of the previous generation. *)
Theorem handleGeneratePassword_below_minimum
  (st : PasswordGenerator.State) (console : list Error) (g : rng) :
  PasswordGenerator.length st < PasswordGenerator.minLength st ->
  PasswordGenerator.handleGeneratePassword st console g =
    ({| PasswordGenerator.password := PasswordGenerator.password st;
        PasswordGenerator.length := PasswordGenerator.length st;
        PasswordGenerator.strength := PasswordGenerator.strength st;
        PasswordGenerator.isGenerating := false;
        PasswordGenerator.copied := PasswordGenerator.copied st;
        PasswordGenerator.validation := PasswordGenerator.validation st |},
     console ++ [length_error (PasswordGenerator.strength st)], g).
Proof.
  intros H. unfold PasswordGenerator.handleGeneratePassword, bind.
  pose proof (generate_throws _ _ g H) as E. unfold generate in E.
  by rewrite E.
Qed.

Lemma handleGeneratePassword_below_minimum_witness :
  let st := PasswordGenerator.onSliderChange 3 PasswordGenerator.initial in
  PasswordGenerator.length st < PasswordGenerator.minLength st
  /\ PasswordGenerator.handleGeneratePassword st [] demo_rng =
    ({| PasswordGenerator.password := PasswordGenerator.password st;
        PasswordGenerator.length := PasswordGenerator.length st;
        PasswordGenerator.strength := PasswordGenerator.strength st;
        PasswordGenerator.isGenerating := false;
        PasswordGenerator.copied := PasswordGenerator.copied st;
        PasswordGenerator.validation := PasswordGenerator.validation st |},
     [] ++ [length_error (PasswordGenerator.strength st)], demo_rng).
Proof.
  cbn zeta.
  assert (PasswordGenerator.length
            (PasswordGenerator.onSliderChange 3 PasswordGenerator.initial)
          < PasswordGenerator.minLength
              (PasswordGenerator.onSliderChange 3 PasswordGenerator.initial)) as H
    by (by vm_compute).
  split; [exact H|].
  exact (handleGeneratePassword_below_minimum
           (PasswordGenerator.onSliderChange 3 PasswordGenerator.initial)
           [] demo_rng H).
Defined.

(** X16.  In every state the handlers reach from the first render, the
    length is at least the minimum of the selected level, nothing has been
    logged, that is, no call of [generatePassword] has thrown, and a
    validation report on display says valid. *)
Theorem reachable_invariant
  (st : PasswordGenerator.State) (console : list Error) (g : rng) :
  PasswordGenerator.reachable st console g ->
  PasswordGenerator.length_ok st
  /\ console = []
  /\ unit_draws g
  /\ forall v, PasswordGenerator.validation st = Some v -> isValid v = true.
Proof.
  induction 1 as [g Hg | st console g _ (Hok & -> & Hg & Hv)
                 | st console g s _ (Hok & -> & Hg & Hv)
                 | st console g p _ (Hok & -> & Hg & Hv)
                 | st console g n _ (Hok & -> & Hg & Hv) Hn].
  - repeat split; [by vm_compute | done | discriminate].
  - destruct (generatePassword_summary (PasswordGenerator.length st)
                (PasswordGenerator.strength st) g Hok Hg)
      as (pw & E & Hlen & Hcov & _).
    pose proof (generatePassword_rest_unit
                  (Build_PasswordConfig (PasswordGenerator.length st)
                     (PasswordGenerator.strength st)) g Hg) as Hg'.
    unfold run, generate in E.
    unfold PasswordGenerator.handleGeneratePassword, bind.
    destruct (generatePassword _ g) as [r g']. cbn [fst snd] in E, Hg'. subst r.
    cbn. repeat split; try done.
    intros v [= <-]. apply validate_covering; [|done].
    unfold PasswordGenerator.length_ok, PasswordGenerator.minLength,
      getMinLengthForStrength in Hok. lia.
  - repeat split; try done.
    unfold PasswordGenerator.length_ok, PasswordGenerator.minLength.
    cbn [PasswordGenerator.handleStrengthChange PasswordGenerator.strength
         PasswordGenerator.length].
    destruct (Z.ltb_spec (PasswordGenerator.length st)
                (getMinLengthForStrength s)); lia.
  - repeat split; try done.
    unfold PasswordGenerator.length_ok, PasswordGenerator.minLength.
    cbn [PasswordGenerator.onNumberChange PasswordGenerator.strength
         PasswordGenerator.length].
    unfold PasswordGenerator.minLength. lia.
  - repeat split; try done.
    unfold PasswordGenerator.length_ok, PasswordGenerator.minLength in *.
    cbn [PasswordGenerator.onSliderChange PasswordGenerator.strength
         PasswordGenerator.length]. lia.
Qed.

Lemma reachable_invariant_witness :
  let st := PasswordGenerator.handleStrengthChange high PasswordGenerator.initial in
  PasswordGenerator.reachable st [] demo_rng
  /\ PasswordGenerator.length_ok st
  /\ @nil Error = []
  /\ unit_draws demo_rng
  /\ forall v, PasswordGenerator.validation st = Some v -> isValid v = true.
Proof.
  cbn zeta.
  assert (PasswordGenerator.reachable
            (PasswordGenerator.handleStrengthChange high PasswordGenerator.initial)
            [] demo_rng) as H.
  { apply PasswordGenerator.reach_strength, PasswordGenerator.reach_initial.
    exact demo_rng_unit. }
  split; [exact H|].
  exact (reachable_invariant _ _ _ H).
Defined.

(** * What the random choices can reach *)

Lemma unit_draws_stream_of (ds : list draw) :
  Forall in_unit ds -> unit_draws (stream_of ds).
Proof.
  intros H k. unfold stream_of. revert k.
  induction H as [|d ds Hd _ IH]; intros [|k]; simpl; try done; by apply IH.
Qed.

Lemma in_unit_draw_index (j n : nat) : (j < n)%nat -> in_unit (draw_index j n).
Proof. unfold in_unit, draw_index. simpl. lia. Qed.

Lemma Math_floor_mul_draw_index (j n : nat) :
  (0 < n)%nat -> Math_floor_mul (draw_index j n) n = j.
Proof.
  intros Hn. unfold Math_floor_mul, draw_index. simpl.
  replace (N.pos (Pos.of_nat n)) with (N.of_nat n) by lia.
  rewrite N.div_mul by lia. lia.
Qed.

Lemma Math_random_stream_of (d : draw) (ds : list draw) :
  Math_random (stream_of (d :: ds)) = (d, stream_of ds).
Proof. reflexivity. Qed.

Lemma swap_dense_eq (l : list ascii) (i j : nat) (x y : ascii) :
  l !! i = Some y -> l !! j = Some x ->
  swap (Some <$> l) i j = Some <$> <[j := y]> (<[i := x]> l).
Proof.
  intros Hy Hx. unfold swap.
  rewrite (arr_get_dense l j x Hx), (arr_get_dense l i y Hy).
  rewrite arr_set_dense by (by eapply lookup_lt_Some).
  rewrite arr_set_dense by (rewrite length_insert; by eapply lookup_lt_Some).
  done.
Qed.

(** The steps of the loop from [i] down leave the positions above [i]
    alone and can arrange the first [i + 1] in any order. *)
Lemma shuffle_loop_reaches (i : nat) :
  forall (l t suffix : list ascii),
    Datatypes.length l = S i -> t ≡ₚ l ->
    exists ds,
      Datatypes.length ds = i /\ Forall in_unit ds
      /\ forall ds',
          shuffle_loop i (Some <$> (l ++ suffix)) (stream_of (ds ++ ds'))
          = (Some <$> (t ++ suffix), stream_of ds').
Proof.
  induction i as [|i IH]; intros l t suffix Hlen Hperm.
  - exists []. repeat split; [done|]. intros ds'.
    destruct l as [|x [|? ?]]; try done.
    apply Permutation_singleton_r in Hperm as ->. done.
  - destruct (decide (t = [])) as [-> | Hne].
    { apply Permutation_length in Hperm. simpl in Hperm. lia. }
    destruct (exists_last Hne) as (t' & y & ->).
    assert (y ∈ l) as Hy
      by (rewrite <- Hperm; apply elem_of_app; right; by constructor).
    apply list_elem_of_lookup in Hy as [j Hj].
    pose proof (lookup_lt_Some _ _ _ Hj) as Hjlt.
    destruct (lookup_lt_is_Some_2 l (S i)) as [z Hz]; [lia|].
    set (l1 := <[j := z]> (<[S i := y]> l)).
    assert (l1 ≡ₚ l) as Hl1 by (by apply Permutation_insert_swap).
    assert (Datatypes.length l1 = S (S i)) as Hlen1
      by (unfold l1; by rewrite !length_insert).
    assert (l1 !! S i = Some y) as Hlast.
    { unfold l1. destruct (decide (j = S i)) as [-> | Hne'].
      - rewrite list_lookup_insert_eq by (rewrite length_insert; lia). congruence.
      - rewrite list_lookup_insert_ne by done.
        rewrite list_lookup_insert_eq by lia. done. }
    assert (l1 = take (S i) l1 ++ [y]) as Hsplit.
    { rewrite <- (take_drop (S i) l1) at 1. f_equal.
      apply list_eq. intros [|k].
      - rewrite lookup_drop, Nat.add_0_r. done.
      - rewrite lookup_drop. simpl. apply lookup_ge_None_2. lia. }
    assert (t' ≡ₚ take (S i) l1) as Hperm'.
    { apply (Permutation_app_inv_r [y]). rewrite <- Hsplit. by rewrite Hl1. }
    destruct (IH (take (S i) l1) t' (y :: suffix)) as (ds & Hds & Hunit & Hrun).
    { rewrite length_take. lia. }
    { done. }
    exists (draw_index j (S i + 1) :: ds). repeat split.
    + simpl. by rewrite Hds.
    + constructor; [apply in_unit_draw_index; lia | done].
    + intros ds'. cbn [shuffle_loop]. unfold bind.
      change ((draw_index j (S i + 1) :: ds) ++ ds')
        with (draw_index j (S i + 1) :: (ds ++ ds')).
      rewrite Math_random_stream_of.
      rewrite Math_floor_mul_draw_index by lia.
      rewrite (swap_dense_eq (l ++ suffix) (S i) j y z).
      * rewrite insert_app_l by lia.
        rewrite insert_app_l by (rewrite length_insert; lia).
        fold l1. rewrite Hsplit, <- !app_assoc. simpl. apply Hrun.
      * by apply lookup_app_l_Some.
      * by apply lookup_app_l_Some.
Qed.

Lemma shuffleString_reaches_stream (l : list ascii) (target : string) :
  chars target ≡ₚ l ->
  exists ds,
    Forall in_unit ds
    /\ forall str ds',
        chars str = l ->
        shuffleString str (stream_of (ds ++ ds')) = (target, stream_of ds').
Proof.
  intros Hperm.
  destruct l as [|c l].
  - apply Permutation_nil_r in Hperm.
    exists []. split; [done|]. intros str ds' El.
    unfold shuffleString, bind, ret, split. rewrite El. simpl.
    rewrite <- (join_split target). unfold split. by rewrite Hperm.
  - destruct (shuffle_loop_reaches (Datatypes.length l) (c :: l) (chars target) [])
      as (ds & _ & Hunit & Hrun); [done | done |].
    exists ds. split; [done|]. intros str ds' El.
    unfold shuffleString, bind, ret, split. rewrite length_fmap, El.
    specialize (Hrun ds'). rewrite !app_nil_r in Hrun.
    cbn [Datatypes.length]. rewrite Nat.sub_succ, Nat.sub_0_r, Hrun.
    by rewrite <- (join_split target) at 2.
Qed.

(** X17.  The shuffle can produce every arrangement: for every string and
    every permutation of it there are random values below 1 on which
    [shuffleString] returns that permutation. *)
Theorem shuffleString_reaches (str target : string) :
  chars target ≡ₚ chars str ->
  exists g, unit_draws g /\ run (shuffleString str) g = target.
Proof.
  intros Hperm.
  destruct (shuffleString_reaches_stream (chars str) target Hperm)
    as (ds & Hunit & Hrun).
  exists (stream_of ds). split; [by apply unit_draws_stream_of|].
  specialize (Hrun str [] eq_refl). rewrite app_nil_r in Hrun.
  unfold run. by rewrite Hrun.
Qed.

Lemma shuffleString_reaches_witness :
  chars "321cbA" ≡ₚ chars "Abc123"
  /\ exists g, unit_draws g /\ run (shuffleString "Abc123") g = "321cbA".
Proof.
  assert (chars "321cbA" ≡ₚ chars "Abc123") as H.
  { change (chars "321cbA") with (reverse (chars "Abc123")).
    apply reverse_Permutation. }
  split; [exact H|]. exact (shuffleString_reaches "Abc123" "321cbA" H).
Defined.

(** ** Every conforming string is a possible password *)

Lemma str_plus_draw_index (password charSet : string) (i : nat) (c : ascii) :
  chars charSet !! i = Some c ->
  chars (str_plus password
           (str_index charSet
              (Math_floor_mul (draw_index i (String.length charSet))
                 (String.length charSet))))
  = chars password ++ [c].
Proof.
  intros Hi. pose proof (lookup_lt_Some _ _ _ Hi) as Hlt.
  rewrite length_chars in Hlt.
  rewrite Math_floor_mul_draw_index by lia.
  rewrite str_index_lookup, Hi. unfold str_plus. by rewrite chars_append.
Qed.

Lemma forEach_required_reaches (requiredSets : list string) :
  forall (picks : list ascii),
    Forall2 (fun c cs => c ∈ chars cs) picks requiredSets ->
    exists ds,
      Forall in_unit ds
      /\ forall password ds', exists pw,
          forEach_required requiredSets password (stream_of (ds ++ ds'))
          = (pw, stream_of ds')
          /\ chars pw = chars password ++ picks.
Proof.
  induction requiredSets as [|cs rest IH]; intros picks Hp.
  - apply Forall2_nil_inv_r in Hp as ->.
    exists []. split; [done|]. intros password ds'. exists password.
    by rewrite app_nil_r.
  - apply Forall2_cons_inv_r in Hp as (c & picks' & Hc & Hp & ->).
    apply list_elem_of_lookup in Hc as [i Hi].
    pose proof (lookup_lt_Some _ _ _ Hi) as Hlt. rewrite length_chars in Hlt.
    destruct (IH picks' Hp) as (ds & Hunit & Hrun).
    exists (draw_index i (String.length cs) :: ds). split.
    + constructor; [by apply in_unit_draw_index | done].
    + intros password ds'.
      destruct (Hrun (str_plus password
                        (str_index cs
                           (Math_floor_mul (draw_index i (String.length cs))
                              (String.length cs)))) ds')
        as (pw & E & Hpw).
      exists pw. split.
      * cbn [forEach_required]. unfold bind.
        change ((draw_index i (String.length cs) :: ds) ++ ds')
          with (draw_index i (String.length cs) :: (ds ++ ds')).
        by rewrite Math_random_stream_of.
      * by rewrite Hpw, (str_plus_draw_index _ _ _ _ Hi), <- app_assoc.
Qed.

Lemma fill_loop_reaches (allChars : string) (fill : list ascii) :
  Forall (fun c => c ∈ chars allChars) fill ->
  exists ds,
    Forall in_unit ds
    /\ forall password ds', exists pw,
        fill_loop (Datatypes.length fill) allChars password (stream_of (ds ++ ds'))
        = (pw, stream_of ds')
        /\ chars pw = chars password ++ fill.
Proof.
  induction fill as [|c fill IH]; intros Hf.
  - exists []. split; [done|]. intros password ds'. exists password.
    by rewrite app_nil_r.
  - apply Forall_cons in Hf as [Hc Hf].
    apply list_elem_of_lookup in Hc as [i Hi].
    pose proof (lookup_lt_Some _ _ _ Hi) as Hlt. rewrite length_chars in Hlt.
    destruct (IH Hf) as (ds & Hunit & Hrun).
    exists (draw_index i (String.length allChars) :: ds). split.
    + constructor; [by apply in_unit_draw_index | done].
    + intros password ds'.
      destruct (Hrun (str_plus password
                        (str_index allChars
                           (Math_floor_mul (draw_index i (String.length allChars))
                              (String.length allChars)))) ds')
        as (pw & E & Hpw).
      exists pw. split.
      * cbn [fill_loop Datatypes.length]. unfold bind.
        change ((draw_index i (String.length allChars) :: ds) ++ ds')
          with (draw_index i (String.length allChars) :: (ds ++ ds')).
        by rewrite Math_random_stream_of.
      * by rewrite Hpw, (str_plus_draw_index _ _ _ _ Hi), <- app_assoc.
Qed.

(** A string that has a character of each of a list of pairwise disjoint
    sets splits into one character per set and the others. *)
Lemma pick_one_of_each (sets : list string) :
  forall (t : list ascii),
    NoDup (chars (join_strings sets)) ->
    (forall cs, cs ∈ sets -> exists c, c ∈ t /\ c ∈ chars cs) ->
    exists picks others,
      Forall2 (fun c cs => c ∈ chars cs) picks sets /\ t ≡ₚ picks ++ others.
Proof.
  induction sets as [|cs rest IH]; intros t Hnd Hcov.
  - exists [], t. by split.
  - simpl in Hnd. rewrite chars_append in Hnd.
    apply NoDup_app in Hnd as (_ & Hdisj & Hnd).
    destruct (Hcov cs) as (c & Hct & Hc); [by constructor|].
    apply elem_of_Permutation in Hct as [t1 Ht1].
    destruct (IH t1 Hnd) as (picks & others & Hp & Hperm).
    { intros cs' Hcs'. destruct (Hcov cs') as (c' & Hc't & Hc'); [by constructor|].
      exists c'. split; [|done].
      rewrite Ht1 in Hc't. apply elem_of_cons in Hc't as [-> | ?]; [|done].
      exfalso. apply (Hdisj c Hc).
      apply elem_of_chars_join_strings. by exists cs'. }
    exists (c :: picks), others. split; [by constructor|].
    by rewrite Ht1, Hperm.
Qed.

(** X18.  Every string that conforms to the policy of a level is a
    possible password: if [target] has at least the minimum length, only
    characters of the character sets of the level and at least one of
    each set, there are random values below 1 on which
    [generatePassword], asked for the length of [target], returns
    [target]. *)
Theorem generatePassword_reaches (S : PasswordStrength) (target : string) :
  MIN_LENGTHS S <= Z.of_nat (String.length target) ->
  (forall c, c ∈ chars target ->
     exists cs, cs ∈ Object_values (CHARACTER_SETS S) /\ c ∈ chars cs) ->
  (forall cs, cs ∈ Object_values (CHARACTER_SETS S) -> contains_char_of target cs) ->
  exists g,
    unit_draws g
    /\ run (generate (Z.of_nat (String.length target)) S) g = Return target.
Proof.
  intros Hlen Halpha Hcov.
  destruct (pick_one_of_each (Object_values (CHARACTER_SETS S)) (chars target))
    as (picks & others & Hp & Hperm).
  { destruct S; apply (bool_decide_unpack _); by vm_compute. }
  { intros cs Hcs. exact (Hcov cs Hcs). }
  assert (Forall (fun c => c ∈ chars (allChars_of S)) others) as Hothers.
  { apply Forall_forall. intros c Hc.
    apply elem_of_chars_join_strings, Halpha.
    rewrite Hperm. apply elem_of_app. by right. }
  destruct (forEach_required_reaches _ picks Hp) as (ds1 & Hu1 & Hrun1).
  destruct (fill_loop_reaches (allChars_of S) others Hothers)
    as (ds2 & Hu2 & Hrun2).
  destruct (shuffleString_reaches_stream (picks ++ others) target Hperm)
    as (ds3 & Hu3 & Hrun3).
  exists (stream_of (ds1 ++ ds2 ++ ds3)). split.
  { apply unit_draws_stream_of. by rewrite !Forall_app. }
  destruct (Hrun1 EmptyString (ds2 ++ ds3)) as (pw1 & E1 & Hpw1).
  destruct (Hrun2 pw1 ds3) as (pw2 & E2 & Hpw2).
  rewrite Hpw1 in Hpw2. simpl in Hpw1, Hpw2.
  specialize (Hrun3 pw2 [] Hpw2). rewrite app_nil_r in Hrun3.
  pose proof (Forall2_length _ _ _ Hp) as Hk.
  pose proof (Permutation_length Hperm) as Hn.
  rewrite length_chars, length_app in Hn.
  unfold run, generate, generatePassword. cbn [length strength].
  destruct (Z.ltb_spec (Z.of_nat (String.length target)) (MIN_LENGTHS S));
    [lia|].
  unfold bind at 1. rewrite E1.
  unfold bind at 1. fold (allChars_of S).
  replace (Z.to_nat (Z.of_nat (String.length target) - Z.of_nat (String.length pw1)))
    with (Datatypes.length others)
    by (rewrite <- (length_chars pw1), Hpw1; lia).
  rewrite E2. unfold bind, ret. by rewrite Hrun3.
Qed.

Lemma generatePassword_reaches_witness :
  MIN_LENGTHS medium <= Z.of_nat (String.length "Tr0ub4dor&3")
  /\ (forall c, c ∈ chars "Tr0ub4dor&3" ->
       exists cs, cs ∈ Object_values (CHARACTER_SETS medium) /\ c ∈ chars cs)
  /\ (forall cs, cs ∈ Object_values (CHARACTER_SETS medium) ->
       contains_char_of "Tr0ub4dor&3" cs)
  /\ exists g,
       unit_draws g
       /\ run (generate (Z.of_nat (String.length "Tr0ub4dor&3")) medium) g
          = Return "Tr0ub4dor&3".
Proof.
  assert (MIN_LENGTHS medium <= Z.of_nat (String.length "Tr0ub4dor&3")) as H1
    by (simpl; lia).
  assert (forall c, c ∈ chars "Tr0ub4dor&3" ->
            exists cs, cs ∈ Object_values (CHARACTER_SETS medium) /\ c ∈ chars cs)
    as H2.
  { intros c Hc. apply elem_of_chars_join_strings.
    revert c Hc. apply Forall_forall, (bool_decide_unpack _). by vm_compute. }
  assert (forall cs, cs ∈ Object_values (CHARACTER_SETS medium) ->
            contains_char_of "Tr0ub4dor&3" cs) as H3.
  { apply Forall_forall. repeat constructor.
    - exists "r"%char. split; apply (bool_decide_unpack _); by vm_compute.
    - exists "T"%char. split; apply (bool_decide_unpack _); by vm_compute.
    - exists "0"%char. split; apply (bool_decide_unpack _); by vm_compute.
    - exists "&"%char. split; apply (bool_decide_unpack _); by vm_compute. }
  split; [exact H1|]. split; [exact H2|]. split; [exact H3|].
  exact (generatePassword_reaches medium "Tr0ub4dor&3" H1 H2 H3).
Defined.
